(** * RAG chatbot: the retrieval pipeline of [backend/rag_pipeline.py] and the
    handlers of [backend/main.py], embedded in Rocq.

    Python values are modelled as the interpreter has them: a [str] is a
    sequence of Unicode code points, an [int] is unbounded, a float is an
    IEEE-754 double.  Exceptions are an explicit [result]; the mutable
    ChromaDB collection and the log of embedding-backend calls are threaded
    through the functions as a [world]; a loop that may run forever takes
    fuel and answers [None] when the fuel runs out. *)

From Stdlib Require Import Ascii String DecimalString DecimalNat Floats.
From Stdlib Require Import ZArith NArith Bool Lia List.
Import ListNotations.

Local Open Scope Z_scope.

(* ================================================================= *)
(** ** Python strings *)

Module Py.

(** A character is a Unicode code point. *)
Definition char := N.
Definition text := list char.

(** A literal of the source, given as a Rocq string of ASCII characters. *)
Definition str (s : string) : text := map N_of_ascii (list_ascii_of_string s).

Definition newline : char := 10%N.

Definition char_eqb (a b : char) : bool := N.eqb a b.

Fixpoint text_eqb (a b : text) : bool :=
  match a, b with
  | [], [] => true
  | x :: a', y :: b' => char_eqb x y && text_eqb a' b'
  | _, _ => false
  end.

(** [len(t)] *)
Definition len (t : text) : Z := Z.of_nat (length t).

(** Truth value of a string: [if t:] *)
Definition truthy (t : text) : bool :=
  match t with [] => false | _ :: _ => true end.

(** The characters [str.strip()] and [str.split()] treat as whitespace
    (CPython's [_PyUnicode_IsWhitespace]). *)
Definition is_space (c : char) : bool :=
  ((9 <=? c) && (c <=? 13) || (28 <=? c) && (c <=? 32)
   || (c =? 133) || (c =? 160) || (c =? 5760)
   || (8192 <=? c) && (c <=? 8202)
   || (c =? 8232) || (c =? 8233) || (c =? 8239) || (c =? 8287)
   || (c =? 12288))%N.

(** [t.lstrip()] *)
Fixpoint lstrip (t : text) : text :=
  match t with
  | [] => []
  | c :: t' => if is_space c then lstrip t' else t
  end.

(** [t.rstrip()] *)
Definition rstrip (t : text) : text := rev (lstrip (rev t)).

(** [t.strip()] *)
Definition strip (t : text) : text := rstrip (lstrip t).

(** Index normalisation of a slice bound ([PySlice_AdjustIndices]): a negative
    bound counts from the end, and the result is clamped to [0, n]. *)
Definition adjust (n i : Z) : Z :=
  if i <? 0 then Z.max 0 (i + n) else Z.min i n.

(** [t[start:stop]] *)
Definition slice (t : text) (start stop : Z) : text :=
  let a := adjust (len t) start in
  let b := adjust (len t) stop in
  firstn (Z.to_nat (b - a)) (skipn (Z.to_nat a) t).

(** [t[:stop]] *)
Definition slice_to (t : text) (stop : Z) : text := slice t 0 stop.

(** [t.startswith(p)] *)
Fixpoint startswith (t p : text) : bool :=
  match p, t with
  | [], _ => true
  | x :: p', y :: t' => char_eqb x y && startswith t' p'
  | _ :: _, [] => false
  end.

(** [t.endswith(p)] *)
Definition endswith (t p : text) : bool := startswith (rev t) (rev p).

(** The candidates [start + k - 1], ..., [start] of a backward search, highest
    first; [-1] when none matches. *)
Fixpoint rfind_from (t sub : text) (start : Z) (k : nat) : Z :=
  match k with
  | O => -1
  | S k' =>
      let i := start + Z.of_nat k' in
      if startswith (skipn (Z.to_nat i) t) sub then i
      else rfind_from t sub start k'
  end.

(** [t.rfind(sub, start, stop)]: the highest index [i] with
    [start <= i <= stop - len(sub)] (bounds normalised as CPython's
    [ADJUST_INDICES] does: [stop] is clamped to [len(t)], a negative bound
    counts from the end) at which [sub] occurs, or [-1]. *)
Definition rfind (t sub : text) (start stop : Z) : Z :=
  let n := len t in
  let e := if n <? stop then n
           else if stop <? 0 then Z.max 0 (stop + n) else stop in
  let s := if start <? 0 then Z.max 0 (start + n) else start in
  rfind_from t sub s (Z.to_nat (e - len sub - s + 1)).

(** [t.rfind(sub)] *)
Definition rfind_all (t sub : text) : Z := rfind t sub 0 (len t).

(** [sep.join(parts)] *)
Fixpoint join (sep : text) (parts : list text) : text :=
  match parts with
  | [] => []
  | [p] => p
  | p :: rest => p ++ sep ++ join sep rest
  end.

(** [t.split()]: the maximal runs of non-whitespace characters. *)
Fixpoint split_ws_aux (t : text) (cur : text) : list text :=
  match t with
  | [] => match cur with [] => [] | _ => [cur] end
  | c :: t' =>
      if is_space c
      then match cur with
           | [] => split_ws_aux t' []
           | _ => cur :: split_ws_aux t' []
           end
      else split_ws_aux t' (cur ++ [c])
  end.

Definition split_ws (t : text) : list text := split_ws_aux t [].

(** [t.split(sep)] for a non-empty [sep]: the pieces between the occurrences
    of [sep], found left to right without overlap; [skip] counts the
    characters of a matched separator still to be passed over. *)
Fixpoint split_sep_aux (sep t : text) (skip : nat) (cur : text) : list text :=
  match t with
  | [] => [cur]
  | c :: t' =>
      match skip with
      | S k => split_sep_aux sep t' k cur
      | O =>
          if startswith t sep
          then cur :: split_sep_aux sep t' (length sep - 1) []
          else split_sep_aux sep t' 0 (cur ++ [c])
      end
  end.

Definition split_sep (t sep : text) : list text := split_sep_aux sep t 0 [].

(** [str(n)] for a non-negative integer. *)
Definition str_of_nat (n : nat) : text :=
  str (NilEmpty.string_of_uint (Nat.to_uint n)).

(** Comparison of strings, lexicographic on code points ([a < b]). *)
Fixpoint text_ltb (a b : text) : bool :=
  match a, b with
  | _, [] => false
  | [], _ :: _ => true
  | x :: a', y :: b' =>
      if (x <? y)%N then true
      else if (y <? x)%N then false
      else text_ltb a' b'
  end.

(** Membership in a list of strings ([w in ws]). *)
Definition mem (w : text) (ws : list text) : bool := existsb (text_eqb w) ws.

(** Insertion of a word in a strictly increasing list, keeping it so. *)
Fixpoint insert_sorted (w : text) (ws : list text) : list text :=
  match ws with
  | [] => [w]
  | v :: ws' =>
      if text_ltb w v then w :: ws
      else if text_eqb w v then ws
      else v :: insert_sorted w ws'
  end.

(** [sorted(set(ws))]: the distinct words in increasing order.  A Python set
    of strings is kept in this canonical form, so that two sets are equal
    exactly when their forms are. *)
Definition sorted_set (ws : list text) : list text :=
  fold_left (fun acc w => insert_sorted w acc) ws [].

(** [len(a.intersection(b))] on sets in canonical form. *)
Definition inter_size (a b : list text) : nat :=
  length (filter (fun w => mem w b) a).

(** [str.lower()] on the ASCII letters; the other code points are kept.
    Python lowers by the Unicode case tables, which agree with this on
    ASCII text. *)
Definition lower_char (c : char) : char :=
  if ((65 <=? c) && (c <=? 90))%N then (c + 32)%N else c.

Definition lower (t : text) : text := map lower_char t.

End Py.

Import Py.

(* ================================================================= *)
(** ** Exceptions, the collection and the backends *)

(** The outcome of a call that may raise; an exception is kept as the text
    [str(e)] gives for it. *)
Inductive result (A : Type) : Type :=
| Ok (a : A)
| Raise (msg : text).

Arguments Ok {A} a.
Arguments Raise {A} msg.

(** An embedding. *)
Definition vector := list float.

(** The metadata dictionary of a chunk; a key that is absent is [None]. *)
Record Metadata := mkMetadata {
  document_id : option text;
  document_name : option text;
  chunk_index : option nat }.

(** One entry of the ChromaDB collection. *)
Record Chunk := mkChunk {
  id : text;
  embedding : vector;
  document : text;
  metadata : Metadata }.

(** The mutable state: the collection, in insertion order, and the batches
    that were handed to an embedding backend, oldest first. *)
Record World := mkWorld {
  collection : list Chunk;
  embed_log : list (list text) }.

(** The OpenAI client: the embeddings endpoint, and the chat completion from
    the prompt to [response.choices[0].message.content]. *)
Record OpenAI := mkOpenAI {
  embeddings_create : text -> result vector;
  chat_completions_create : text -> result text }.

(** What [RAGPipeline._initialize] sets up, and the nearest-neighbour query
    of the collection, which ChromaDB computes: the [n] best entries with
    their distances. *)
Record RAGPipeline := mkRAGPipeline {
  use_local_embeddings : bool;
  embedding_model : option (text -> result vector);
  openai_client : option OpenAI;
  collection_query : list Chunk -> vector -> nat -> list (Chunk * float) }.

(** A search result, the dictionary [search] builds. *)
Record Context := mkContext {
  content : text;
  ctx_metadata : Metadata;
  distance : float }.

Module Chroma.

(** [collection.count()] *)
Definition count (c : list Chunk) : nat := length c.

Definition has_document_id (d : text) (r : Chunk) : bool :=
  match document_id (metadata r) with
  | Some d' => text_eqb d d'
  | None => false
  end.

(** [collection.get(where={"document_id": d})] *)
Definition get_where (c : list Chunk) (d : text) : list Chunk :=
  filter (has_document_id d) c.

(** [collection.delete(ids=ids)] *)
Definition delete (c : list Chunk) (ids : list text) : list Chunk :=
  filter (fun r => negb (mem (id r) ids)) c.

(** [collection.add(...)]: the entries are appended in order; an entry whose
    id the collection already holds is left out, the stored one is kept. *)
Definition add (c : list Chunk) (batch : list Chunk) : list Chunk :=
  fold_left
    (fun acc r => if mem (id r) (map id acc) then acc else acc ++ [r])
    batch c.

End Chroma.

(* ================================================================= *)
(** ** A monad for state, exceptions and fuel *)

(** A computation reads and writes the world; it answers [None] when it did
    not finish within its fuel, and otherwise a value or an exception
    together with the world it left. *)
Definition M (A : Type) : Type := World -> option (result A * World).

Definition ret {A} (a : A) : M A := fun w => Some (Ok a, w).

Definition raise {A} (msg : text) : M A := fun w => Some (Raise msg, w).

Definition bind {A B} (m : M A) (k : A -> M B) : M B :=
  fun w =>
    match m w with
    | None => None
    | Some (Raise e, w') => Some (Raise e, w')
    | Some (Ok a, w') => k a w'
    end.

(** [try: m except Exception as e: h(e)] *)
Definition try_except {A} (m : M A) (h : text -> M A) : M A :=
  fun w =>
    match m w with
    | None => None
    | Some (Raise e, w') => h e w'
    | Some (Ok a, w') => Some (Ok a, w')
    end.

Definition lift_result {A} (r : result A) : M A := fun w => Some (r, w).

Definition lift_option {A} (o : option A) : M A :=
  fun w => match o with Some a => Some (Ok a, w) | None => None end.

Definition get_collection : M (list Chunk) :=
  fun w => Some (Ok (collection w), w).

Definition set_collection (c : list Chunk) : M unit :=
  fun w => Some (Ok tt, mkWorld c (embed_log w)).

(** A call of an embedding backend on a batch of inputs is logged. *)
Definition log_embed (batch : list text) : M unit :=
  fun w => Some (Ok tt, mkWorld (collection w) (embed_log w ++ [batch])).

Notation "x <- m ;; k" := (bind m (fun x => k))
  (at level 61, m at next level, right associativity).
Notation "m ;;; k" := (bind m (fun _ => k))
  (at level 61, right associativity).

(** [for x in xs: f(x)], collecting the values. *)
Fixpoint mapM {A B} (f : A -> M B) (xs : list A) : M (list B) :=
  match xs with
  | [] => ret []
  | x :: xs' => y <- f x ;; ys <- mapM f xs' ;; ret (y :: ys)
  end.

(** The values of a pure function that may raise, up to the first
    exception. *)
Fixpoint map_result {A B} (f : A -> result B) (xs : list A) : result (list B) :=
  match xs with
  | [] => Ok []
  | x :: xs' =>
      match f x with
      | Raise e => Raise e
      | Ok y =>
          match map_result f xs' with
          | Raise e => Raise e
          | Ok ys => Ok (y :: ys)
          end
      end
  end.

(* ================================================================= *)
(** ** [RAGPipeline] *)

(** [_get_embeddings] *)
Definition _get_embeddings (self : RAGPipeline) (t : text) : M vector :=
  match use_local_embeddings self, embedding_model self with
  | true, Some encode => log_embed [t] ;;; lift_result (encode t)
  | _, _ =>
      match openai_client self with
      | Some client => log_embed [t] ;;; lift_result (embeddings_create client t)
      | None => raise (str "No embedding model available")
      end
  end.

(** The end of the window that starts at [start]: [start + chunk_size], moved
    back behind the last ['. '] (or else the last ['.\n']) of the window when
    the window ends inside the text and holds one. *)
Definition window_end (t : text) (chunk_size start : Z) : Z :=
  let e := start + chunk_size in
  if e <? len t then
    let period_pos := rfind t (str ". ") start e in
    let period_pos :=
      if period_pos =? -1 then rfind t [46%N; newline] start e
      else period_pos in
    if negb (period_pos =? -1) then period_pos + 2 else e
  else e.

(** [start = end - overlap if end < len(text) else end] *)
Definition next_start (t : text) (overlap e : Z) : Z :=
  if e <? len t then e - overlap else e.

(** The [while start < len(text)] loop of [_chunk_text]; one unit of fuel
    per iteration. *)
Fixpoint chunk_loop (fuel : nat) (t : text) (chunk_size overlap start : Z)
    (chunks : list text) : option (list text) :=
  if start <? len t then
    match fuel with
    | O => None
    | S fuel' =>
        let e := window_end t chunk_size start in
        let chunk := strip (slice t start e) in
        let chunks' := if truthy chunk then chunks ++ [chunk] else chunks in
        chunk_loop fuel' t chunk_size overlap (next_start t overlap e) chunks'
    end
  else Some chunks.

(** [_chunk_text(text, chunk_size, overlap)] *)
Definition _chunk_text (fuel : nat) (t : text) (chunk_size overlap : Z)
    : option (list text) :=
  if len t <=? chunk_size then Some [t]
  else chunk_loop fuel t chunk_size overlap 0 [].

(** The defaults of [_chunk_text], and the bound of the single-chunk path of
    [add_document]. *)
Definition default_chunk_size : Z := 2000.
Definition default_overlap : Z := 200.
Definition single_chunk_bound : Z := 3000.

(** The chunks [add_document] computes for a document. *)
Definition document_chunks (fuel : nat) (content : text) : option (list text) :=
  if len content <? single_chunk_bound then
    Some (if truthy (strip content) then [content] else [])
  else _chunk_text fuel content default_chunk_size default_overlap.

(** The embeddings of the chunks of one document: one batch call of the
    local model, or one call of [_get_embeddings] per chunk. *)
Definition embed_chunks (self : RAGPipeline) (valid_chunks : list text)
    : M (list vector) :=
  match use_local_embeddings self, embedding_model self with
  | true, Some encode =>
      log_embed valid_chunks ;;; lift_result (map_result encode valid_chunks)
  | _, _ => mapM (_get_embeddings self) valid_chunks
  end.

(** [f"{document_id}_{i}"] *)
Definition chunk_id (doc_id : text) (i : nat) : text :=
  doc_id ++ str "_" ++ str_of_nat i.

(** The entries [add_document] hands to [collection.add]: ids, embeddings,
    documents and metadatas by position ([i] is the index of the first). *)
Fixpoint entries (doc_id doc_name : text) (i : nat)
    (valid_chunks : list text) (embeddings : list vector) : list Chunk :=
  match valid_chunks, embeddings with
  | c :: cs, v :: vs =>
      mkChunk (chunk_id doc_id i) v c
        (mkMetadata (Some doc_id) (Some doc_name) (Some i))
      :: entries doc_id doc_name (S i) cs vs
  | _, _ => []
  end.

(** [add_document] *)
Definition add_document (self : RAGPipeline) (fuel : nat)
    (doc_id doc_name content : text) : M unit :=
  chunks <- lift_option (document_chunks fuel content) ;;
  match chunks with
  | [] => ret tt
  | _ =>
      let valid_chunks := filter (fun c => truthy (strip c)) chunks in
      match valid_chunks with
      | [] => ret tt
      | _ =>
          embeddings_list <- embed_chunks self valid_chunks ;;
          c <- get_collection ;;
          set_collection
            (Chroma.add c (entries doc_id doc_name 0 valid_chunks embeddings_list))
      end
  end.

(** [remove_document] *)
Definition remove_document (doc_id : text) : M unit :=
  c <- get_collection ;;
  match map id (Chroma.get_where c doc_id) with
  | [] => ret tt
  | ids => set_collection (Chroma.delete c ids)
  end.

(** [search]: the contexts and their scores. *)
Definition search (self : RAGPipeline) (query : text) (top_k : nat)
    : M (list Context * list float) :=
  c <- get_collection ;;
  if Nat.eqb (Chroma.count c) 0 then ret ([], [])
  else
    query_embedding <- _get_embeddings self query ;;
    let results :=
      collection_query self c query_embedding (Nat.min top_k (Chroma.count c)) in
    ret (map (fun h => mkContext (document (fst h)) (metadata (fst h)) (snd h))
             results,
         map snd results).

(** [clear_all_documents] *)
Definition clear_all_documents : M unit :=
  c <- get_collection ;;
  if Nat.ltb 0 (Chroma.count c) then
    match map id c with
    | [] => ret tt
    | ids => set_collection (Chroma.delete c ids)
    end
  else ret tt.

(* ================================================================= *)
(** ** Response synthesis *)

(** [metadata.get('document_name', default)] *)
Definition name_or (default : text) (m : Metadata) : text :=
  match document_name m with Some n => n | None => default end.

(** The cap [_generate_simple_response] puts on one context: at most 500
    characters, cut behind the last period of these when it lies past
    index 300, and an ellipsis. *)
Definition limit_content (c : text) : text :=
  if 500 <? len c then
    let last_period := rfind_all (slice_to c 500) (str ".") in
    if 300 <? last_period then slice_to c (last_period + 1) ++ str "..."
    else slice_to c 500 ++ str "..."
  else c.

(** [doc_content_map[doc_name].append(content)], the dictionary kept as an
    association list in insertion order. *)
Fixpoint map_append (m : list (text * list text)) (k v : text)
    : list (text * list text) :=
  match m with
  | [] => [(k, [v])]
  | (k', vs) :: m' =>
      if text_eqb k k' then (k', vs ++ [v]) :: m'
      else (k', vs) :: map_append m' k v
  end.

(** The loop that groups the contents of the contexts by document name. *)
Definition group_contexts (ctxs : list Context) : list (text * list text) :=
  fold_left
    (fun m ctx =>
       let c := strip (content ctx) in
       if truthy c
       then map_append m (name_or (str "Document") (ctx_metadata ctx))
                       (limit_content (join (str " ") (split_ws c)))
       else m)
    ctxs [].

(** Equality of two word sets in canonical form (the test
    [words_in_sentence not in seen_words] compares sorted tuples). *)
Fixpoint words_eqb (x y : list text) : bool :=
  match x, y with
  | [], [] => true
  | u :: x', v :: y' => text_eqb u v && words_eqb x' y'
  | _, _ => false
  end.

(** One step of the loop of [_create_natural_response] over the sentences:
    the key sentences so far and the word sets seen so far. *)
Definition key_sentence_step (query_words : list text)
    (acc : list text * list (list text)) (sentence : text)
    : list text * list (list text) :=
  let '(key_sentences, seen_words) := acc in
  let sentence_words := sorted_set (split_ws (lower sentence)) in
  let relevance := inter_size query_words sentence_words in
  if Nat.ltb 0 relevance || Nat.ltb (length key_sentences) 5 then
    if negb (existsb (words_eqb sentence_words) seen_words)
       || Nat.ltb (length key_sentences) 3
    then (key_sentences ++ [strip sentence], seen_words ++ [sentence_words])
    else acc
  else acc.

(** [response.endswith(('.', '!', '?'))] *)
Definition ends_sentence (t : text) : bool :=
  endswith t (str ".") || endswith t (str "!") || endswith t (str "?").

(** [_create_natural_response] *)
Definition _create_natural_response (query content : text) : text :=
  let sentences := split_sep content (str ". ") in
  let query_words := sorted_set (split_ws (lower query)) in
  let key_sentences :=
    fst (fold_left (key_sentence_step query_words) (firstn 15 sentences)
                   ([], [])) in
  let key_sentences :=
    match key_sentences with
    | [] => filter truthy (map strip (firstn 5 sentences))
    | _ => key_sentences
    end in
  let response :=
    if Nat.eqb (length key_sentences) 1 then nth 0 key_sentences []
    else if Nat.leb (length key_sentences) 3
    then join (str ". ") key_sentences
    else join (str ". ") (firstn 3 key_sentences) ++ str ". "
         ++ last key_sentences [] in
  let response :=
    if ends_sentence response then response else response ++ str "." in
  if 800 <? len response then
    let cutoff := rfind_all (slice_to response 800) (str ".") in
    if 500 <? cutoff then slice_to response (cutoff + 1)
    else slice_to response 750 ++ str "..."
  else response.

(** [query.lower().startswith(("what", "tell me", "explain", "describe"))] *)
Definition asks_to_explain (query : text) : bool :=
  let q := lower query in
  startswith q (str "what") || startswith q (str "tell me")
  || startswith q (str "explain") || startswith q (str "describe").

(** The branch of [_generate_simple_response] taken when the answer counts
    as found and there are contexts. *)
Definition found_response (query : text) (retrieved_contexts : list Context)
    : text :=
  let doc_content_map := group_contexts (firstn 5 retrieved_contexts) in
  let all_content :=
    map (fun kv => join (str " ") (firstn 3 (snd kv))) doc_content_map in
  let combined_text := join (str " ") all_content in
  let num_docs := length doc_content_map in
  let doc_names := map fst doc_content_map in
  if asks_to_explain query then
    (if Nat.eqb num_docs 1
     then str "Based on " ++ nth 0 doc_names [] ++ str ", "
     else str "Based on your documents (" ++ join (str ", ") doc_names
          ++ str "), ")
    ++ _create_natural_response query combined_text
  else
    (if Nat.eqb num_docs 1
     then str "Based on " ++ nth 0 doc_names []
          ++ str ", here's what I found:" ++ [newline; newline]
     else str "Based on your documents, here's what I found:"
          ++ [newline; newline])
    ++ (if 1000 <? len combined_text then
          let cutoff := rfind_all (slice_to combined_text 1000) (str ".") in
          if 700 <? cutoff
          then slice_to combined_text (cutoff + 1)
               ++ str " For more details, please refer to the full documents."
          else slice_to combined_text 900
               ++ str "... For more details, please refer to the full documents."
        else combined_text).

(** The lead-in of the hedged answer. *)
Definition hedged_lead_in (query : text) : text :=
  str "I found some information in your documents, though it may not directly answer '"
  ++ query ++ str "':" ++ [newline; newline].

(** The two messages for a query without usable context. *)
Definition not_found_message (query : text) : text :=
  str "I couldn't find specific information about '" ++ query
  ++ str "' in your selected documents.".

Definition add_documents_first_message (query : text) : text :=
  str "I couldn't find specific information about '" ++ query
  ++ str "' in your selected documents. "
  ++ str "Please make sure you've added documents to the knowledge base first.".

(** [_generate_simple_response] *)
Definition _generate_simple_response (query : text)
    (retrieved_contexts : list Context) (found_in_documents : bool) : text :=
  match found_in_documents, retrieved_contexts with
  | true, _ :: _ => found_response query retrieved_contexts
  | _, ctx :: _ =>
      let best_context := content ctx in
      if truthy best_context then
        hedged_lead_in query ++ slice_to best_context 600
        ++ (if 600 <? len best_context then str "..." else [])
      else not_found_message query
  | _, [] => add_documents_first_message query
  end.

(** The prompt [_generate_with_openai] builds. *)
Definition build_prompt (query : text) (retrieved_contexts : list Context)
    (found_in_documents : bool) : text :=
  let context := join [newline; newline] (map content retrieved_contexts) in
  if found_in_documents && truthy context then
    str "You are a helpful assistant that answers questions based on the provided documents."
    ++ [newline; newline] ++ str "Context from user's documents:" ++ [newline]
    ++ context ++ [newline; newline] ++ str "Question: " ++ query
    ++ [newline; newline]
    ++ str "Answer the question based on the context provided. If the context doesn't fully answer the question, say so but provide the best answer you can from the context."
  else
    str "The user asked: " ++ query ++ [newline; newline]
    ++ str "Note: The answer was not found in the user's documents. Please provide a helpful answer from your general knowledge.".

(** [_generate_with_openai]: the completion, or on any exception of the
    provider the simple response. *)
Definition _generate_with_openai (client : OpenAI) (query : text)
    (retrieved_contexts : list Context) (found_in_documents : bool) : text :=
  match chat_completions_create client
          (build_prompt query retrieved_contexts found_in_documents) with
  | Ok answer => strip answer
  | Raise _ =>
      _generate_simple_response query retrieved_contexts found_in_documents
  end.

(** [generate_response] *)
Definition generate_response (self : RAGPipeline) (query : text)
    (retrieved_contexts : list Context) (found_in_documents : bool) : text :=
  match openai_client self with
  | Some client =>
      _generate_with_openai client query retrieved_contexts found_in_documents
  | None =>
      _generate_simple_response query retrieved_contexts found_in_documents
  end.

(* ================================================================= *)
(** ** The handlers of [main.py] *)

(** The document source, [GoogleDocsService] on top of the Google APIs: the
    joined text runs of a document, and the [name] entry of its file
    metadata when there is one. *)
Record DocsService := mkDocsService {
  fetch_text : text -> result text;
  fetch_name : text -> result (option text) }.

(** [get_document_content]: the text of the document, stripped. *)
Definition get_document_content (docs : DocsService) (doc_id : text)
    : M text :=
  t <- lift_result (fetch_text docs doc_id) ;; ret (strip t).

(** [get_document_metadata(...).get('name', f'Document {doc_id}')] *)
Definition get_document_name (docs : DocsService) (doc_id : text) : M text :=
  n <- lift_result (fetch_name docs doc_id) ;;
  ret (match n with Some n => n | None => str "Document " ++ doc_id end).

(** What a handler gives back: a response, or an [HTTPException]. *)
Inductive http (A : Type) : Type :=
| Respond (a : A)
| HTTPException (status : Z) (detail : text).

Arguments Respond {A} a.
Arguments HTTPException {A} status detail.

Record AddDocumentsResponse := mkAddDocumentsResponse {
  success : bool;
  message : text;
  added_count : nat }.

(** The replacement of one document in [add_documents]: the old version is
    removed, then the new one is added. *)
Definition replace_document (self : RAGPipeline) (fuel : nat)
    (doc_id doc_name content : text) : M unit :=
  remove_document doc_id ;;;
  add_document self fuel doc_id doc_name content.

(** The body of the [try] for one document of the batch; [true] when the
    document was added, [false] when it was found empty and reported in
    [errors]. *)
Definition process_document (self : RAGPipeline) (docs : DocsService)
    (fuel : nat) (doc_id : text) (errors : list text)
    : M (bool * list text) :=
  content <- get_document_content docs doc_id ;;
  if negb (truthy content) || (len (strip content) =? 0) then
    ret (false, errors ++ [str "Document " ++ doc_id ++ str " is empty"])
  else
    doc_name <- get_document_name docs doc_id ;;
    replace_document self fuel doc_id doc_name content ;;;
    ret (true, errors).

(** The [for doc_id in request.document_ids] loop with its
    [except Exception], from the counters [added_count] and [errors]. *)
Fixpoint add_documents_loop (self : RAGPipeline) (docs : DocsService)
    (fuel : nat) (document_ids : list text) (added : nat)
    (errors : list text) : M (nat * list text) :=
  match document_ids with
  | [] => ret (added, errors)
  | doc_id :: rest =>
      r <- try_except
             (process_document self docs fuel doc_id errors)
             (fun e =>
                ret (false,
                     errors ++ [str "Error processing document " ++ doc_id
                                ++ str ": " ++ e])) ;;
      let '(ok, errors') := r in
      add_documents_loop self docs fuel rest
        (if ok then S added else added) errors'
  end.

(** The response [add_documents] builds after the loop. *)
Definition add_documents_response (added : nat) (errors : list text)
    : AddDocumentsResponse :=
  if Nat.ltb 0 added then
    mkAddDocumentsResponse true
      (str "Successfully added " ++ str_of_nat added
       ++ str " document(s) to knowledge base"
       ++ match errors with
          | [] => []
          | _ => str ". Errors: " ++ str_of_nat (length errors)
          end)
      added
  else
    mkAddDocumentsResponse false
      (str "Failed to add documents. Errors: " ++ join (str "; ") errors)
      0.

(** [add_documents]; [authenticated] tells whether the session id is one of
    [user_sessions].  The world is the one the handler leaves; [None] when
    it does not finish within the fuel given to each document. *)
Definition add_documents (self : RAGPipeline) (docs : DocsService)
    (fuel : nat) (authenticated : bool) (document_ids : list text)
    (clear_first : bool) (w : World)
    : option (http AddDocumentsResponse * World) :=
  match (if clear_first then clear_all_documents else ret tt) w with
  | None => None
  | Some (_, w1) =>
      if authenticated then
        match add_documents_loop self docs fuel document_ids 0 [] w1 with
        | None => None
        | Some (Ok (added, errors), w2) =>
            Some (Respond (add_documents_response added errors), w2)
        | Some (Raise e, w2) =>
            Some (Respond (mkAddDocumentsResponse false
                             (str "Error adding documents: " ++ e) 0), w2)
        end
      else Some (HTTPException 401 (str "Not authenticated"), w1)
  end.

(** Truth value of a list: [if l:] *)
Definition nonempty {A} (l : list A) : bool :=
  match l with [] => false | _ :: _ => true end.

(** The loop [for doc, score in zip(retrieved_docs, scores)] of the chat
    handler: a context whose score is below 1.0 is kept, and marks the
    answer as found. *)
Fixpoint threshold_loop (retrieved_docs : list Context) (scores : list float)
    (found_in_documents : bool) (relevant_contexts : list Context)
    : bool * list Context :=
  match retrieved_docs, scores with
  | doc :: docs, score :: scores' =>
      if PrimFloat.ltb score 1%float
      then threshold_loop docs scores' true (relevant_contexts ++ [doc])
      else threshold_loop docs scores' found_in_documents relevant_contexts
  | _, _ => (found_in_documents, relevant_contexts)
  end.

(** [found_in_documents] and [relevant_contexts] as the chat handler has
    them when it generates the response. *)
Definition select_contexts (retrieved_docs : list Context)
    (scores : list float) : bool * list Context :=
  let '(found_in_documents, relevant_contexts) :=
    if nonempty retrieved_docs
    then threshold_loop retrieved_docs scores false []
    else (false, []) in
  if nonempty retrieved_docs && negb found_in_documents
  then (true, firstn 3 retrieved_docs)
  else (found_in_documents, relevant_contexts).

(** An entry of the [sources] of a chat response. *)
Record Source := mkSource {
  source_name : text;
  source_id : text;
  relevance_score : float }.

(** One step of the loop that builds [sources_dict]: a document name is
    entered once, with the highest relevance of its contexts. *)
Fixpoint add_source (sources : list Source) (name doc_id : text)
    (score : float) : list Source :=
  match sources with
  | [] => [mkSource name doc_id score]
  | s :: rest =>
      if text_eqb name (source_name s) then
        (if PrimFloat.ltb (relevance_score s) score
         then mkSource (source_name s) (source_id s) score
         else s) :: rest
      else s :: add_source rest name doc_id score
  end.

Definition format_sources (relevant_contexts : list Context) : list Source :=
  fold_left
    (fun sources ctx =>
       add_source sources
         (name_or (str "Unknown") (ctx_metadata ctx))
         (match document_id (ctx_metadata ctx) with Some d => d | None => [] end)
         (PrimFloat.sub 1%float (distance ctx)))
    relevant_contexts [].

(** The response of the chat handler, without the conversation id (a fresh
    UUID when the request has none). *)
Record ChatResponse := mkChatResponse {
  response : text;
  sources : list Source;
  found_in_documents : bool }.

(** [chat] *)
Definition chat (self : RAGPipeline) (query : text) (w : World)
    : option (http ChatResponse * World) :=
  match search self query 5 w with
  | None => None
  | Some (Raise e, w') =>
      Some (HTTPException 500 (str "Error processing chat request: " ++ e), w')
  | Some (Ok (retrieved_docs, scores), w') =>
      let '(found, relevant_contexts) := select_contexts retrieved_docs scores in
      Some (Respond
              (mkChatResponse
                 (generate_response self query relevant_contexts found)
                 (format_sources relevant_contexts)
                 found),
            w')
  end.

(* ================================================================= *)
(** ** Notions the properties are stated with *)

(** The answer of the embedding backend [_get_embeddings] selects, as a
    value. *)
Definition embed_one (self : RAGPipeline) (t : text) : result vector :=
  match use_local_embeddings self, embedding_model self with
  | true, Some encode => encode t
  | _, _ =>
      match openai_client self with
      | Some client => embeddings_create client t
      | None => Raise (str "No embedding model available")
      end
  end.

(** The chunk texts the collection holds for a document, in order. *)
Definition documents_of (d : text) (c : list Chunk) : list text :=
  map document (Chroma.get_where c d).

(** The entries of the other documents. *)
Definition other_documents (d : text) (c : list Chunk) : list Chunk :=
  filter (fun r => negb (Chroma.has_document_id d r)) c.

(** An entry is named as [add_document] names it: its id is
    [f"{document_id}_{chunk_index}"] of its metadata. *)
Definition well_named (r : Chunk) : bool :=
  match document_id (metadata r), chunk_index (metadata r) with
  | Some d, Some i => text_eqb (id r) (chunk_id d i)
  | _, _ => false
  end.

Fixpoint distinct (ids : list text) : bool :=
  match ids with
  | [] => true
  | i :: rest => negb (mem i rest) && distinct rest
  end.

(** The invariant of the collection: ids are unique (ChromaDB keeps them
    so) and every entry is named as [add_document] names it. *)
Definition wf_store (c : list Chunk) : bool :=
  distinct (map id c) && forallb well_named c.

(** The chunks of a document that are not blank. *)
Definition valid_chunks (chunks : list text) : list text :=
  filter (fun c => truthy (strip c)) chunks.

(** The loop of [_chunk_text] again, keeping the windows [(start, end)] it
    cuts instead of the stripped chunks. *)
Fixpoint windows_loop (fuel : nat) (t : text) (chunk_size overlap start : Z)
    : option (list (Z * Z)) :=
  if start <? len t then
    match fuel with
    | O => None
    | S fuel' =>
        let e := window_end t chunk_size start in
        match windows_loop fuel' t chunk_size overlap (next_start t overlap e) with
        | None => None
        | Some ws => Some ((start, e) :: ws)
        end
    end
  else Some [].

(** The chunks of a list of windows: the stripped slices that are not
    empty. *)
Definition window_chunks (t : text) (ws : list (Z * Z)) : list text :=
  filter truthy (map (fun w => strip (slice t (fst w) (snd w))) ws).

(** What a window after the first adds: its slice without the first
    [overlap] characters. *)
Definition dropped (t : text) (overlap : Z) (w : Z * Z) : text :=
  skipn (Z.to_nat overlap) (slice t (fst w) (snd w)).

(** The text put together again from the windows: the slice of the first,
    and what every later one adds. *)
Definition rebuild (t : text) (overlap : Z) (ws : list (Z * Z)) : text :=
  match ws with
  | [] => []
  | w :: rest => slice t (fst w) (snd w) ++ concat (map (dropped t overlap) rest)
  end.

(** Every window that ends inside the text is longer than the overlap. *)
Definition steady_cuts (t : text) (chunk_size overlap : Z) : bool :=
  forallb
    (fun k =>
       let s := Z.of_nat k in
       let e := window_end t chunk_size s in
       (len t <=? e) || (overlap <? e - s))
    (seq 0 (length t)).

(** Chunk texts put together after dropping a prefix of the given length
    from each chunk after the first. *)
Fixpoint drop_prefixes (drops : list nat) (chunks : list text) : text :=
  match chunks, drops with
  | c :: cs, k :: ks => skipn k c ++ drop_prefixes ks cs
  | c :: cs, [] => c ++ drop_prefixes [] cs
  | [], _ => []
  end.

Definition reassemble (drops : list nat) (chunks : list text) : text :=
  drop_prefixes (0%nat :: drops) chunks.





(** The retrieved contexts whose distance is below the threshold. *)
Definition relevant (retrieved_docs : list Context) : list Context :=
  filter (fun c => PrimFloat.ltb (distance c) 1%float) retrieved_docs.

(** Distances that do not decrease along the list. *)
Fixpoint ascending (ds : list float) : bool :=
  match ds with
  | d :: ((d' :: _) as rest) => PrimFloat.leb d d' && ascending rest
  | _ => true
  end.

(** The entries a document leaves in the store, from its chunks and what
    the embedding backend answers. *)
Definition new_entries (self : RAGPipeline) (d n : text) (chunks : list text)
    : list Chunk :=
  match map_result (embed_one self) (valid_chunks chunks) with
  | Ok vs => entries d n 0 (valid_chunks chunks) vs
  | Raise _ => []
  end.

(** The outcome of [add_document] for these chunks. *)
Definition add_outcome (self : RAGPipeline) (chunks : list text) : result unit :=
  match map_result (embed_one self) (valid_chunks chunks) with
  | Ok _ => Ok tt
  | Raise e => Raise e
  end.

(* ================================================================= *)
(** ** Concrete pipelines, stores and documents *)

Module Demo.

(** A query that ranks the first [n] entries of the collection, each at
    distance 1.5. *)
Definition far_query (c : list Chunk) (_ : vector) (n : nat)
    : list (Chunk * float) :=
  map (fun r => (r, 1.5%float)) (firstn n c).

(** A pipeline with a local embedding model and no OpenAI client. *)
Definition local_pipeline : RAGPipeline :=
  mkRAGPipeline true (Some (fun _ => Ok [0%float])) None far_query.

(** A client whose every call times out. *)
Definition failing_client : OpenAI :=
  mkOpenAI (fun _ => Raise (str "Request timed out."))
           (fun _ => Raise (str "Request timed out.")).

(** A pipeline with a local embedding model and that client. *)
Definition openai_pipeline : RAGPipeline :=
  mkRAGPipeline true (Some (fun _ => Ok [0%float])) (Some failing_client)
                far_query.

Definition empty_world : World := mkWorld [] [].

Definition doc_a : text := str "doc-a".
Definition doc_b : text := str "doc-b".

Definition sky : text := str "The sky is blue. Grass is green.".

Definition meta (d n : text) (i : nat) : Metadata :=
  mkMetadata (Some d) (Some n) (Some i).

(** A store with two chunks of an old version of [doc_a] and one chunk of
    [doc_b]. *)
Definition old_world : World :=
  mkWorld
    [ mkChunk (chunk_id doc_a 0) [0%float] (str "Old first part.")
        (meta doc_a (str "Doc A") 0);
      mkChunk (chunk_id doc_b 0) [0%float] (str "Another document.")
        (meta doc_b (str "Doc B") 0);
      mkChunk (chunk_id doc_a 1) [0%float] (str "Old second part.")
        (meta doc_a (str "Doc A") 1) ]
    [].

(** A store with the one chunk of the document [sky]. *)
Definition sky_world : World :=
  mkWorld [ mkChunk (chunk_id doc_a 0) [0%float] sky
              (meta doc_a (str "Doc A") 0) ] [].

Definition letter_a : char := 97%N.



(** A blank and 2000 letters. *)
Definition blank_then_letters : text := 32%N :: repeat letter_a 2000.

(** Ten letters, 3000 blanks, ten letters. *)
Definition letters_apart : text :=
  repeat letter_a 10 ++ repeat 32%N 3000 ++ repeat letter_a 10.

(** 1900 letters, a sentence end, 3000 letters. *)
Definition looping_text : text :=
  repeat letter_a 1900 ++ str ". " ++ repeat letter_a 3000.

(** 200 short sentences, 2600 characters. *)
Definition sentences : text :=
  concat (repeat (str "Hello world. ") 200).


(** A context at the given distance. *)
Definition ctx (t : text) (dist : float) : Context :=
  mkContext t (meta doc_a (str "Doc A") 0) dist.

End Demo.

(** The answer text of a chat that responded. *)
Definition answer_of (r : option (http ChatResponse * World)) : option text :=
  match r with
  | Some (Respond resp, _) => Some (response resp)
  | _ => None
  end.

(* ================================================================= *)
(** ** Strings: equality, membership, decimal numerals *)

Lemma text_eqb_eq (a b : text) : text_eqb a b = true <-> a = b.
Proof.
  revert b; induction a as [|x a IH]; intros [|y b]; simpl;
    try (split; (discriminate || reflexivity)).
  rewrite andb_true_iff, IH. unfold char_eqb. rewrite N.eqb_eq.
  split; [intros [-> ->]; reflexivity | intros H; injection H; auto].
Qed.

Lemma text_eqb_refl (a : text) : text_eqb a a = true.
Proof. apply text_eqb_eq; reflexivity. Qed.

Lemma text_eqb_neq (a b : text) : text_eqb a b = false <-> a <> b.
Proof.
  rewrite <- text_eqb_eq. destruct (text_eqb a b); split; congruence.
Qed.

Lemma mem_In (w : text) (ws : list text) : mem w ws = true <-> In w ws.
Proof.
  unfold mem. rewrite existsb_exists. split.
  - intros [x [Hin Heq]]. apply text_eqb_eq in Heq. subst; assumption.
  - intros Hin. exists w. split; [assumption | apply text_eqb_refl].
Qed.

Lemma mem_not_In (w : text) (ws : list text) : mem w ws = false <-> ~ In w ws.
Proof.
  rewrite <- mem_In. destruct (mem w ws); split; congruence.
Qed.

Lemma distinct_NoDup (ids : list text) : distinct ids = true <-> NoDup ids.
Proof.
  induction ids as [|i rest IH]; simpl.
  - split; [constructor | reflexivity].
  - rewrite andb_true_iff, negb_true_iff, mem_not_In, IH. split.
    + intros [H1 H2]; constructor; assumption.
    + intros H; inversion H; subst; split; assumption.
Qed.

Lemma N_of_ascii_inj (a b : ascii) : N_of_ascii a = N_of_ascii b -> a = b.
Proof.
  intros H. rewrite <- (ascii_N_embedding a), <- (ascii_N_embedding b).
  now rewrite H.
Qed.

Lemma str_inj (s1 s2 : string) : str s1 = str s2 -> s1 = s2.
Proof.
  unfold str. intros H.
  rewrite <- (string_of_list_ascii_of_string s1),
          <- (string_of_list_ascii_of_string s2).
  f_equal. revert H.
  generalize (list_ascii_of_string s1) (list_ascii_of_string s2).
  induction l as [|a l IH]; intros [|b l']; simpl; try discriminate; auto.
  intros H; injection H as Hab Hl. f_equal; [now apply N_of_ascii_inj | auto].
Qed.

Lemma str_of_nat_inj (i j : nat) : str_of_nat i = str_of_nat j -> i = j.
Proof.
  unfold str_of_nat. intros H. apply str_inj in H.
  apply Unsigned.to_uint_inj.
  assert (Hs : Some (Nat.to_uint i) = Some (Nat.to_uint j)).
  { rewrite <- (NilEmpty.usu (Nat.to_uint i)), <- (NilEmpty.usu (Nat.to_uint j)).
    now rewrite H. }
  now injection Hs.
Qed.

Lemma digits_no_underscore (d : Decimal.uint) :
  ~ In 95%N (str (NilEmpty.string_of_uint d)).
Proof.
  induction d; simpl; intros H;
    try (destruct H as [H | H]; [discriminate H | exact (IHd H)]).
  exact H.
Qed.

Lemma str_of_nat_no_underscore (n : nat) : ~ In 95%N (str_of_nat n).
Proof. apply digits_no_underscore. Qed.

(** The last underscore of a name splits it in one way only. *)
Lemma split_at_last_underscore (x y u v : text) :
  ~ In 95%N u -> ~ In 95%N v ->
  x ++ 95%N :: u = y ++ 95%N :: v -> x = y /\ u = v.
Proof.
  intros Hu Hv. revert y.
  induction x as [|a x IH]; intros [|b y]; simpl; intros H.
  - injection H; auto.
  - injection H as _ H. exfalso. apply Hu. rewrite H.
    apply in_or_app; right; left; reflexivity.
  - injection H as _ H. exfalso. apply Hv. rewrite <- H.
    apply in_or_app; right; left; reflexivity.
  - injection H as Hab H. destruct (IH _ H) as [-> ->]. subst; auto.
Qed.

Lemma chunk_id_inj (d d' : text) (i j : nat) :
  chunk_id d i = chunk_id d' j -> d = d' /\ i = j.
Proof.
  unfold chunk_id. change (str "_") with [95%N]. simpl. intros H.
  apply split_at_last_underscore in H; try apply str_of_nat_no_underscore.
  destruct H as [-> H]. split; [reflexivity | now apply str_of_nat_inj].
Qed.

(* ================================================================= *)
(** ** The collection *)

Lemma NoDup_map_inj_in {A B} (f : A -> B) (l : list A) (x y : A) :
  NoDup (map f l) -> In x l -> In y l -> f x = f y -> x = y.
Proof.
  induction l as [|a l IH]; simpl; [tauto|].
  intros Hnd Hx Hy Hf. inversion Hnd as [|? ? Hnotin Hnd']; subst.
  destruct Hx as [-> | Hx], Hy as [-> | Hy]; auto.
  - exfalso. apply Hnotin. rewrite Hf. now apply in_map.
  - exfalso. apply Hnotin. rewrite <- Hf. now apply in_map.
Qed.

Lemma delete_get_where (c : list Chunk) (d : text) :
  NoDup (map id c) ->
  Chroma.delete c (map id (Chroma.get_where c d)) = other_documents d c.
Proof.
  intros Hnd. unfold Chroma.delete, other_documents, Chroma.get_where.
  apply filter_ext_in. intros r Hr. f_equal.
  destruct (Chroma.has_document_id d r) eqn:Hd.
  - apply mem_In. apply in_map. apply filter_In. auto.
  - apply mem_not_In. intros Hin. apply in_map_iff in Hin.
    destruct Hin as [r' [Hid Hr']]. apply filter_In in Hr'.
    destruct Hr' as [Hr' Hd'].
    assert (r' = r) by (eapply NoDup_map_inj_in; eauto).
    subst. congruence.
Qed.

Lemma other_documents_none (c : list Chunk) (d : text) :
  Chroma.get_where c d = [] -> other_documents d c = c.
Proof.
  unfold Chroma.get_where, other_documents.
  induction c as [|r c IH]; simpl; [reflexivity|].
  destruct (Chroma.has_document_id d r); simpl; [discriminate|].
  intros H. now rewrite IH.
Qed.

Lemma remove_document_run (d : text) (w : World) :
  NoDup (map id (collection w)) ->
  remove_document d w
  = Some (Ok tt, mkWorld (other_documents d (collection w)) (embed_log w)).
Proof.
  intros Hnd. unfold remove_document, bind, get_collection.
  destruct (map id (Chroma.get_where (collection w) d)) eqn:Hids.
  - apply map_eq_nil in Hids. rewrite other_documents_none by assumption.
    destruct w; reflexivity.
  - rewrite <- Hids, delete_get_where by assumption. reflexivity.
Qed.

Lemma add_fresh (batch c : list Chunk) :
  (forall r, In r batch -> ~ In (id r) (map id c)) ->
  NoDup (map id batch) ->
  Chroma.add c batch = c ++ batch.
Proof.
  unfold Chroma.add. revert c.
  induction batch as [|r batch IH]; intros c Hfresh Hnd; simpl.
  - now rewrite app_nil_r.
  - inversion Hnd as [|? ? Hnotin Hnd']; subst.
    assert (Hr : mem (id r) (map id c) = false).
    { apply mem_not_In. apply Hfresh. now left. }
    rewrite Hr, IH; [now rewrite <- app_assoc | | assumption].
    intros r' Hr' Hin. rewrite map_app in Hin. apply in_app_or in Hin.
    destruct Hin as [Hin | [Heq | []]].
    + exact (Hfresh r' (or_intror Hr') Hin).
    + apply Hnotin. rewrite Heq. now apply in_map.
Qed.

(** *** The entries of one document *)

Lemma entries_ids (d n : text) (cs : list text) (vs : list vector) (i : nat) :
  length vs = length cs ->
  map id (entries d n i cs vs) = map (chunk_id d) (seq i (length cs)).
Proof.
  revert vs i. induction cs as [|c cs IH]; intros [|v vs] i; simpl;
    try discriminate; auto.
  intros H. injection H as H. now rewrite IH.
Qed.


Lemma entries_named (d n : text) (cs : list text) (vs : list vector) (i : nat) :
  forall r, In r (entries d n i cs vs) ->
            Chroma.has_document_id d r = true /\ well_named r = true.
Proof.
  revert vs i. induction cs as [|c cs IH]; intros [|v vs] i r; simpl;
    try tauto.
  intros [<- | Hin].
  - unfold Chroma.has_document_id, well_named; simpl.
    now rewrite !text_eqb_refl.
  - eapply IH; eauto.
Qed.

Lemma entries_distinct (d n : text) (cs : list text) (vs : list vector) (i : nat) :
  length vs = length cs -> NoDup (map id (entries d n i cs vs)).
Proof.
  intros H. rewrite entries_ids by assumption.
  apply NoDup_map_NoDup_ForallPairs; [| apply seq_NoDup].
  intros x y _ _ Heq. now apply chunk_id_inj in Heq.
Qed.

Lemma well_named_inv (r : Chunk) :
  well_named r = true ->
  exists d i, document_id (metadata r) = Some d /\ id r = chunk_id d i.
Proof.
  unfold well_named.
  destruct (document_id (metadata r)) as [d|]; [|discriminate].
  destruct (chunk_index (metadata r)) as [i|]; [|discriminate].
  intros H. apply text_eqb_eq in H. now exists d, i.
Qed.

(** An id of the document is not the id of an entry of another one. *)
Lemma chunk_id_fresh (d : text) (i : nat) (c : list Chunk) :
  forallb well_named c = true ->
  ~ In (chunk_id d i) (map id (other_documents d c)).
Proof.
  intros Hwf Hin. apply in_map_iff in Hin. destruct Hin as [r [Hid Hr]].
  apply filter_In in Hr. destruct Hr as [Hr Hd].
  rewrite forallb_forall in Hwf. specialize (Hwf r Hr).
  apply well_named_inv in Hwf. destruct Hwf as [d' [j [Hdoc Hname]]].
  rewrite Hname in Hid. apply chunk_id_inj in Hid. destruct Hid as [-> _].
  unfold Chroma.has_document_id in Hd. rewrite Hdoc, text_eqb_refl in Hd.
  discriminate.
Qed.

Lemma wf_store_inv (c : list Chunk) :
  wf_store c = true <-> NoDup (map id c) /\ forallb well_named c = true.
Proof. unfold wf_store. now rewrite andb_true_iff, distinct_NoDup. Qed.

Lemma NoDup_filter {A} (f : A -> bool) (g : A -> text) (l : list A) :
  NoDup (map g l) -> NoDup (map g (filter f l)).
Proof.
  induction l as [|a l IH]; simpl; [auto|].
  intros H. inversion H as [|? ? Hnotin Hnd]; subst.
  destruct (f a); simpl; auto. constructor; auto.
  intros Hin. apply Hnotin. apply in_map_iff in Hin.
  destruct Hin as [x [Hx Hin]]. apply filter_In in Hin.
  rewrite <- Hx. apply in_map. tauto.
Qed.

Lemma wf_store_others (d : text) (c : list Chunk) :
  wf_store c = true -> wf_store (other_documents d c) = true.
Proof.
  rewrite !wf_store_inv. intros [Hnd Hwn]. split.
  - now apply NoDup_filter.
  - rewrite forallb_forall in *. intros r Hr. apply Hwn.
    apply filter_In in Hr. tauto.
Qed.

(** The store after a replacement: the other documents, then the new
    entries. *)
Lemma wf_store_replaced (d n : text) (cs : list text) (vs : list vector)
    (c : list Chunk) :
  length vs = length cs -> wf_store c = true ->
  wf_store (other_documents d c ++ entries d n 0 cs vs) = true.
Proof.
  intros Hlen Hwf. pose proof (wf_store_others d c Hwf) as Ho.
  rewrite wf_store_inv in *. destruct Hwf as [_ Hwn], Ho as [Hnd Hwn'].
  split.
  - rewrite map_app. apply NoDup_app; [assumption | now apply entries_distinct |].
    intros i Hi Hin. rewrite entries_ids in Hin by assumption.
    apply in_map_iff in Hin. destruct Hin as [k [<- _]].
    exact (chunk_id_fresh d k c Hwn Hi).
  - rewrite forallb_app, Hwn'. simpl. apply forallb_forall.
    intros r Hr. now apply entries_named in Hr.
Qed.

(* ================================================================= *)
(** ** Embedding and ingestion *)

Lemma map_result_length {A B} (f : A -> result B) (xs : list A) (ys : list B) :
  map_result f xs = Ok ys -> length ys = length xs.
Proof.
  revert ys. induction xs as [|x xs IH]; simpl; intros ys H.
  - injection H as <-. reflexivity.
  - destruct (f x); [|discriminate].
    destruct (map_result f xs) as [zs|]; [|discriminate].
    injection H as <-. simpl. now rewrite (IH zs).
Qed.

Lemma map_result_ext {A B} (f g : A -> result B) (xs : list A) :
  (forall x, f x = g x) -> map_result f xs = map_result g xs.
Proof.
  intros H. induction xs as [|x xs IH]; simpl; [reflexivity|].
  now rewrite H, IH.
Qed.

(** [_get_embeddings] answers what the backend answers and leaves the
    collection alone. *)
Lemma _get_embeddings_run (self : RAGPipeline) (t : text) (w : World) :
  exists w', _get_embeddings self t w = Some (embed_one self t, w')
             /\ collection w' = collection w.
Proof.
  unfold _get_embeddings, embed_one, bind, log_embed, lift_result, raise.
  destruct (use_local_embeddings self), (embedding_model self),
    (openai_client self); simpl; eexists; split; reflexivity.
Qed.

Lemma mapM_get_embeddings (self : RAGPipeline) (cs : list text) (w : World) :
  exists w', mapM (_get_embeddings self) cs w
             = Some (map_result (embed_one self) cs, w')
             /\ collection w' = collection w.
Proof.
  revert w. induction cs as [|c cs IH]; intros w; simpl.
  - exists w. split; reflexivity.
  - unfold bind. destruct (_get_embeddings_run self c w) as [w1 [-> Hc1]].
    destruct (embed_one self c) as [v|e].
    + destruct (IH w1) as [w2 [-> Hc2]].
      destruct (map_result (embed_one self) cs); simpl;
        eexists; (split; [reflexivity | congruence]).
    + eexists; split; [reflexivity | assumption].
Qed.

Lemma embed_chunks_run (self : RAGPipeline) (cs : list text) (w : World) :
  exists w', embed_chunks self cs w
             = Some (map_result (embed_one self) cs, w')
             /\ collection w' = collection w.
Proof.
  unfold embed_chunks.
  destruct (use_local_embeddings self) eqn:Hl;
    [destruct (embedding_model self) as [encode|] eqn:Hm |];
    try apply mapM_get_embeddings.
  exists (mkWorld (collection w) (embed_log w ++ [cs])).
  split; [|reflexivity].
  unfold bind, log_embed, lift_result. do 2 f_equal.
  apply map_result_ext. intros x. unfold embed_one. now rewrite Hl, Hm.
Qed.

Lemma add_nil (c : list Chunk) : Chroma.add c [] = c.
Proof. reflexivity. Qed.

Lemma add_document_run (self : RAGPipeline) (fuel : nat)
    (d n content : text) (chunks : list text) (w : World) :
  document_chunks fuel content = Some chunks ->
  exists w', add_document self fuel d n content w
             = Some (add_outcome self chunks, w')
             /\ collection w'
                = Chroma.add (collection w) (new_entries self d n chunks).
Proof.
  intros Hc. unfold add_document, bind at 1, lift_option. rewrite Hc.
  unfold add_outcome, new_entries.
  fold (valid_chunks chunks).
  destruct chunks as [|c0 chunks0] eqn:Hchunks.
  { simpl. exists w. split; reflexivity. }
  rewrite <- Hchunks. 
  destruct (valid_chunks chunks) as [|v0 vs0] eqn:Hvalid.
  { simpl. exists w. split; reflexivity. }
  rewrite <- Hvalid. unfold bind.
  destruct (embed_chunks_run self (valid_chunks chunks) w) as [w1 [-> Hw1]].
  destruct (map_result (embed_one self) (valid_chunks chunks)) as [vs|e].
  - unfold get_collection, set_collection. eexists. split; [reflexivity|].
    simpl. now rewrite Hw1.
  - eexists. split; [reflexivity | now rewrite add_nil].
Qed.

Lemma new_entries_named (self : RAGPipeline) (d n : text) (chunks : list text) :
  forall r, In r (new_entries self d n chunks) ->
            Chroma.has_document_id d r = true /\ well_named r = true.
Proof.
  unfold new_entries. intros r.
  destruct (map_result _ _); [apply entries_named | intros []].
Qed.

Lemma new_entries_distinct (self : RAGPipeline) (d n : text) (chunks : list text) :
  NoDup (map id (new_entries self d n chunks)).
Proof.
  unfold new_entries.
  destruct (map_result _ _) eqn:H; [|constructor].
  apply entries_distinct. eapply map_result_length; eauto.
Qed.

Lemma new_entries_fresh (self : RAGPipeline) (d n : text) (chunks : list text)
    (c : list Chunk) :
  forallb well_named c = true ->
  forall r, In r (new_entries self d n chunks) ->
            ~ In (id r) (map id (other_documents d c)).
Proof.
  intros Hwn r Hr. apply new_entries_named in Hr. destruct Hr as [Hd Hr].
  apply well_named_inv in Hr. destruct Hr as [d' [i [Hdoc ->]]].
  unfold Chroma.has_document_id in Hd. rewrite Hdoc in Hd.
  apply text_eqb_eq in Hd. subst d'. now apply chunk_id_fresh.
Qed.


Lemma wf_store_new (self : RAGPipeline) (d n : text) (chunks : list text)
    (c : list Chunk) :
  wf_store c = true ->
  wf_store (other_documents d c ++ new_entries self d n chunks) = true.
Proof.
  intros Hwf. unfold new_entries.
  destruct (map_result _ _) eqn:H.
  - apply wf_store_replaced; [eapply map_result_length; eauto | assumption].
  - rewrite app_nil_r. now apply wf_store_others.
Qed.

(** A replacement leaves the other documents, followed by the new
    entries. *)
Lemma replace_document_run (self : RAGPipeline) (fuel : nat)
    (d n content : text) (chunks : list text) (w : World) :
  wf_store (collection w) = true ->
  document_chunks fuel content = Some chunks ->
  exists w', replace_document self fuel d n content w
             = Some (add_outcome self chunks, w')
             /\ collection w'
                = other_documents d (collection w)
                  ++ new_entries self d n chunks.
Proof.
  intros Hwf Hc. apply wf_store_inv in Hwf. destruct Hwf as [Hnd Hwn].
  unfold replace_document, bind.
  rewrite remove_document_run by assumption.
  destruct (add_document_run self fuel d n content chunks
              (mkWorld (other_documents d (collection w)) (embed_log w)) Hc)
    as [w' [-> Hw']].
  exists w'. split; [reflexivity|]. rewrite Hw'. simpl.
  apply add_fresh; [now apply new_entries_fresh | apply new_entries_distinct].
Qed.









(** [add_document] alone does not remove what the collection holds for the
    document: the old chunks stay, and the new one, whose id is taken, is
    left out. *)
Lemma add_document_alone_keeps_old :
  exists w',
    add_document Demo.local_pipeline 0 Demo.doc_a (str "Doc A") Demo.sky
      Demo.old_world = Some (Ok tt, w')
    /\ documents_of Demo.doc_a (collection w')
       = [str "Old first part."; str "Old second part."].
Proof. eexists. split; vm_compute; reflexivity. Qed.





(* ================================================================= *)
(** ** Search and the threshold policy *)

(** C7.  A query on an empty store is not an error: when [count()] is 0,
    [search] returns the pair of empty lists for every query and every
    [top_k], and leaves the world as it was, so no embedding backend was
    called. *)
Theorem search_empty_store (self : RAGPipeline) (query : text) (top_k : nat)
    (w : World) :
  Chroma.count (collection w) = 0%nat ->
  search self query top_k w = Some (Ok ([], []), w).
Proof.
  intros H. unfold search, bind, get_collection, ret. now rewrite H.
Qed.

Lemma search_empty_store_witness :
  Chroma.count (collection Demo.empty_world) = 0%nat
  /\ search Demo.local_pipeline (str "What color is the sky?") 5
       Demo.empty_world = Some (Ok ([], []), Demo.empty_world).
Proof.
  split; [reflexivity|].
  apply (search_empty_store Demo.local_pipeline
           (str "What color is the sky?") 5 Demo.empty_world).
  reflexivity.
Defined.

(** The scores of a search are the distances of its contexts. *)
Lemma search_scores (self : RAGPipeline) (query : text) (top_k : nat)
    (w w' : World) (retrieved : list Context) (scores : list float) :
  search self query top_k w = Some (Ok (retrieved, scores), w') ->
  scores = map distance retrieved.
Proof.
  unfold search, bind, get_collection, ret.
  destruct (Nat.eqb (Chroma.count (collection w)) 0).
  - intros H. injection H as <- <- _. reflexivity.
  - destruct (_get_embeddings self query w) as [[[v|e] w1]|];
      try discriminate.
    intros H. injection H as <- <- _. now rewrite map_map.
Qed.

Lemma threshold_loop_relevant (docs : list Context) (found : bool)
    (acc : list Context) :
  threshold_loop docs (map distance docs) found acc
  = (found || nonempty (relevant docs), acc ++ relevant docs).
Proof.
  revert found acc. induction docs as [|c docs IH]; intros found acc; simpl.
  - now rewrite orb_false_r, app_nil_r.
  - destruct (PrimFloat.ltb (distance c) 1); rewrite IH; simpl.
    + now rewrite orb_true_r, <- app_assoc.
    + reflexivity.
Qed.

Lemma select_contexts_relevant (docs : list Context) :
  select_contexts docs (map distance docs)
  = (nonempty docs,
     match relevant docs with [] => firstn 3 docs | rel => rel end).
Proof.
  unfold select_contexts. destruct docs as [|c docs]; [reflexivity|].
  cbn [nonempty]. rewrite threshold_loop_relevant. cbn [app orb andb].
  destruct (relevant (c :: docs)); reflexivity.
Qed.

Lemma ascending_firstn (n : nat) (ds : list float) :
  ascending ds = true -> ascending (firstn n ds) = true.
Proof.
  revert ds. induction n as [|n IH]; intros [|d ds]; simpl; auto.
  destruct ds as [|d' ds]; [destruct n; reflexivity|].
  intros H. apply andb_true_iff in H. destruct H as [H1 H2].
  specialize (IH (d' :: ds) H2). destruct n as [|n]; [reflexivity|].
  cbn [firstn] in *. cbn [ascending]. now rewrite H1.
Qed.

(** The contexts and the flag the chat handler passes to the synthesizer,
    and its response. *)
Lemma chat_run (self : RAGPipeline) (query : text) (w w' : World)
    (retrieved : list Context) (scores : list float) :
  search self query 5 w = Some (Ok (retrieved, scores), w') ->
  let contexts :=
    match relevant retrieved with [] => firstn 3 retrieved | rel => rel end in
  chat self query w
  = Some (Respond
            (mkChatResponse
               (generate_response self query contexts (nonempty retrieved))
               (format_sources contexts)
               (nonempty retrieved)),
          w').
Proof.
  intros Hs. pose proof (search_scores _ _ _ _ _ _ _ Hs) as ->.
  unfold chat. rewrite Hs, select_contexts_relevant. reflexivity.
Qed.

(** C3.  Threshold classification with soft fallback.  On the chat path a
    retrieved result counts as relevant exactly when its distance is below
    1.0; when some result is relevant, the relevant ones are the contexts
    of the synthesizer; when results were retrieved and none is relevant,
    the first three retrieved results, in the order of retrieval (which
    stays ascending when the retrieval is), are passed instead, and the
    answer is marked as found. *)
Theorem chat_threshold_policy (self : RAGPipeline) (query : text)
    (w w' : World) (retrieved : list Context) (scores : list float) :
  search self query 5 w = Some (Ok (retrieved, scores), w') ->
  exists contexts,
    chat self query w
    = Some (Respond
              (mkChatResponse
                 (generate_response self query contexts (nonempty retrieved))
                 (format_sources contexts)
                 (nonempty retrieved)),
            w')
    /\ (forall c, In c (relevant retrieved)
                  <-> In c retrieved /\ PrimFloat.ltb (distance c) 1 = true)
    /\ (relevant retrieved <> [] -> contexts = relevant retrieved)
    /\ (relevant retrieved = [] -> contexts = firstn 3 retrieved)
    /\ (ascending (map distance retrieved) = true ->
        ascending (map distance (firstn 3 retrieved)) = true).
Proof.
  intros Hs. eexists. split; [exact (chat_run _ _ _ _ _ _ Hs)|].
  split; [intros c; apply filter_In|].
  split; [|split].
  - destruct (relevant retrieved); [congruence | reflexivity].
  - intros ->. reflexivity.
  - rewrite <- firstn_map. apply ascending_firstn.
Qed.

Lemma chat_threshold_policy_witness :
  search Demo.local_pipeline (str "sky?") 5 Demo.sky_world
  = Some (Ok ([Demo.ctx Demo.sky 1.5], [1.5%float]),
          mkWorld (collection Demo.sky_world) [[str "sky?"]])
  /\ exists contexts,
       chat Demo.local_pipeline (str "sky?") Demo.sky_world
       = Some (Respond
                 (mkChatResponse
                    (generate_response Demo.local_pipeline (str "sky?")
                       contexts true)
                    (format_sources contexts)
                    true),
               mkWorld (collection Demo.sky_world) [[str "sky?"]])
       /\ (forall c, In c (relevant [Demo.ctx Demo.sky 1.5])
                     <-> In c [Demo.ctx Demo.sky 1.5]
                         /\ PrimFloat.ltb (distance c) 1 = true)
       /\ (relevant [Demo.ctx Demo.sky 1.5] <> [] ->
           contexts = relevant [Demo.ctx Demo.sky 1.5])
       /\ (relevant [Demo.ctx Demo.sky 1.5] = [] ->
           contexts = firstn 3 [Demo.ctx Demo.sky 1.5])
       /\ (ascending (map distance [Demo.ctx Demo.sky 1.5]) = true ->
           ascending (map distance (firstn 3 [Demo.ctx Demo.sky 1.5])) = true).
Proof.
  split; [reflexivity|].
  apply (chat_threshold_policy Demo.local_pipeline (str "sky?")
           Demo.sky_world (mkWorld (collection Demo.sky_world) [[str "sky?"]])
           [Demo.ctx Demo.sky 1.5] [1.5%float]).
  reflexivity.
Defined.

(* ================================================================= *)
(** ** Response synthesis *)

(** C5.  Errors of the LLM provider are never surfaced: when the client is
    configured and its completion call raises, whatever the exception,
    [generate_response] returns what the deterministic synthesizer returns
    on the same query, contexts and flag. *)
Theorem provider_error_falls_back (self : RAGPipeline) (client : OpenAI)
    (query : text) (retrieved_contexts : list Context)
    (found_in_documents : bool) (e : text) :
  openai_client self = Some client ->
  chat_completions_create client
    (build_prompt query retrieved_contexts found_in_documents) = Raise e ->
  generate_response self query retrieved_contexts found_in_documents
  = _generate_simple_response query retrieved_contexts found_in_documents.
Proof.
  intros Hc He. unfold generate_response, _generate_with_openai.
  now rewrite Hc, He.
Qed.

Lemma provider_error_falls_back_witness :
  generate_response Demo.openai_pipeline (str "sky?")
    [Demo.ctx Demo.sky 0.5] true
  = _generate_simple_response (str "sky?") [Demo.ctx Demo.sky 0.5] true.
Proof.
  apply (provider_error_falls_back Demo.openai_pipeline Demo.failing_client
           (str "sky?") [Demo.ctx Demo.sky 0.5] true
           (str "Request timed out.")); reflexivity.
Defined.

Lemma slice_to_length (t : text) (n : Z) : 0 <= n -> len (slice_to t n) <= n.
Proof.
  intros Hn. unfold slice_to, slice, len, adjust.
  rewrite length_firstn, Z.ltb_irrefl.
  destruct (n <? 0) eqn:E; [apply Z.ltb_lt in E|]; lia.
Qed.

(** C8, as the code has it.  In the threshold-fallback case (results were
    retrieved, none below the threshold) the chat handler marks the answer
    as found and passes the first three results, so the deterministic
    synthesizer gives its regular answer from them.  The hedged lead-in,
    followed by the first 600 characters of the best context and an
    ellipsis when it is longer, is what the synthesizer returns for the same
    contexts when it is told the answer was not found and the best context
    is not empty. *)
Theorem weak_context_response (self : RAGPipeline) (query : text)
    (w w' : World) (retrieved : list Context) (scores : list float)
    (best : Context) (rest : list Context) :
  search self query 5 w = Some (Ok (retrieved, scores), w') ->
  relevant retrieved = [] ->
  firstn 3 retrieved = best :: rest ->
  truthy (content best) = true ->
  answer_of (chat self query w)
  = Some (generate_response self query (best :: rest) true)
  /\ _generate_simple_response query (best :: rest) true
     = found_response query (best :: rest)
  /\ _generate_simple_response query (best :: rest) false
     = hedged_lead_in query ++ slice_to (content best) 600
       ++ (if 600 <? len (content best) then str "..." else [])
  /\ len (slice_to (content best) 600) <= 600.
Proof.
  intros Hs Hrel Htop Hbest.
  rewrite (chat_run _ _ _ _ _ _ Hs), Hrel, Htop.
  assert (Hne : nonempty retrieved = true)
    by (destruct retrieved; [discriminate | reflexivity]).
  rewrite Hne. split; [reflexivity|]. split; [reflexivity|].
  split; [|apply slice_to_length; lia].
  unfold _generate_simple_response. now rewrite Hbest.
Qed.

Lemma weak_context_response_witness :
  answer_of (chat Demo.local_pipeline (str "sky?") Demo.sky_world)
  = Some (generate_response Demo.local_pipeline (str "sky?")
            [Demo.ctx Demo.sky 1.5] true)
  /\ _generate_simple_response (str "sky?") [Demo.ctx Demo.sky 1.5] true
     = found_response (str "sky?") [Demo.ctx Demo.sky 1.5]
  /\ _generate_simple_response (str "sky?") [Demo.ctx Demo.sky 1.5] false
     = hedged_lead_in (str "sky?") ++ slice_to Demo.sky 600
       ++ (if 600 <? len Demo.sky then str "..." else [])
  /\ len (slice_to Demo.sky 600) <= 600.
Proof.
  apply (weak_context_response Demo.local_pipeline (str "sky?")
           Demo.sky_world (mkWorld (collection Demo.sky_world) [[str "sky?"]])
           [Demo.ctx Demo.sky 1.5] [1.5%float] (Demo.ctx Demo.sky 1.5) []);
    reflexivity.
Defined.

(** C8 as the spec states it fails: with one chunk in the store, retrieved
    at distance 1.5, and no LLM client, the chat answers with the regular
    text, which does not begin with the hedged lead-in. *)
Lemma weak_context_claim_fails :
  search Demo.local_pipeline (str "sky?") 5 Demo.sky_world
  = Some (Ok ([Demo.ctx Demo.sky 1.5], [1.5%float]),
          mkWorld (collection Demo.sky_world) [[str "sky?"]])
  /\ PrimFloat.ltb 1.5 1 = false
  /\ answer_of (chat Demo.local_pipeline (str "sky?") Demo.sky_world)
     = Some (str "Based on Doc A, here's what I found:"
             ++ [newline; newline] ++ Demo.sky)
  /\ startswith
       (str "Based on Doc A, here's what I found:"
        ++ [newline; newline] ++ Demo.sky)
       (hedged_lead_in (str "sky?")) = false.
Proof. repeat split; vm_compute; reflexivity. Qed.

Lemma messages_differ (query : text) :
  not_found_message query <> add_documents_first_message query.
Proof.
  unfold not_found_message, add_documents_first_message. intros H.
  apply app_inv_head in H. apply app_inv_head in H.
  apply (f_equal (@length char)) in H. vm_compute in H. discriminate.
Qed.

(** C9, as the code has it.  For every query, an empty context list gives
    one and the same templated message, the one that asks to add documents
    first, whatever the flag and whatever the store holds; the other
    template, without that request, is the answer for a context list whose
    best context is empty when the answer counts as not found. *)
Theorem no_context_message (query : text) (found_in_documents : bool)
    (m : Metadata) (d : float) (rest : list Context) :
  _generate_simple_response query [] found_in_documents
  = add_documents_first_message query
  /\ _generate_simple_response query (mkContext [] m d :: rest) false
     = not_found_message query
  /\ not_found_message query <> add_documents_first_message query.
Proof.
  split; [now destruct found_in_documents|].
  split; [reflexivity | apply messages_differ].
Qed.

Lemma no_context_message_witness :
  _generate_simple_response (str "sky?") [] false
  = add_documents_first_message (str "sky?")
  /\ _generate_simple_response (str "sky?")
       (mkContext [] (Demo.meta Demo.doc_a (str "Doc A") 0) 1.5 :: []) false
     = not_found_message (str "sky?")
  /\ not_found_message (str "sky?") <> add_documents_first_message (str "sky?").
Proof.
  exact (no_context_message (str "sky?") false
           (Demo.meta Demo.doc_a (str "Doc A") 0) 1.5%float []).
Defined.

(** C9 as the spec states it fails: with an empty context list the
    synthesizer cannot tell the two cases apart, its answer is the same for
    both values of the flag. *)
Lemma no_context_claim_fails :
  _generate_simple_response (str "sky?") [] true
  = _generate_simple_response (str "sky?") [] false
  /\ answer_of (chat Demo.local_pipeline (str "sky?") Demo.empty_world)
     = Some (_generate_simple_response (str "sky?") [] true).
Proof. split; reflexivity. Qed.

(* ================================================================= *)
(** ** The chunker *)

Section ChunkLoop.

Variable t : text.
Variables chunk_size overlap : Z.

Lemma chunk_loop_done (fuel : nat) (start : Z) (chunks : list text) :
  len t <= start ->
  chunk_loop fuel t chunk_size overlap start chunks = Some chunks.
Proof.
  intros H. apply Z.ltb_ge in H. destruct fuel; simpl; now rewrite H.
Qed.

Lemma chunk_loop_out_of_fuel (start : Z) (chunks : list text) :
  start < len t ->
  chunk_loop 0 t chunk_size overlap start chunks = None.
Proof. intros H. apply Z.ltb_lt in H. simpl. now rewrite H. Qed.

Lemma chunk_loop_step (fuel : nat) (start : Z) (chunks : list text) :
  start < len t ->
  chunk_loop (S fuel) t chunk_size overlap start chunks
  = let e := window_end t chunk_size start in
    let chunk := strip (slice t start e) in
    chunk_loop fuel t chunk_size overlap (next_start t overlap e)
      (if truthy chunk then chunks ++ [chunk] else chunks).
Proof. intros H. apply Z.ltb_lt in H. simpl. now rewrite H. Qed.

(** A start index the loop comes back to is never left. *)
Lemma chunk_loop_stuck (start : Z) :
  start < len t ->
  next_start t overlap (window_end t chunk_size start) = start ->
  forall fuel chunks,
    chunk_loop fuel t chunk_size overlap start chunks = None.
Proof.
  intros Hlt Hback. induction fuel as [|fuel IH]; intros chunks.
  - now apply chunk_loop_out_of_fuel.
  - rewrite chunk_loop_step by assumption. cbv zeta. rewrite Hback. apply IH.
Qed.

(** The chunks are those of the windows the loop cuts. *)
Lemma chunk_loop_windows (fuel : nat) :
  forall start chunks,
    chunk_loop fuel t chunk_size overlap start chunks
    = option_map (fun ws => chunks ++ window_chunks t ws)
        (windows_loop fuel t chunk_size overlap start).
Proof.
  induction fuel as [|fuel IH]; intros start chunks; simpl;
    destruct (start <? len t); simpl;
    try reflexivity; try (now rewrite app_nil_r).
  rewrite IH.
  destruct (windows_loop fuel t chunk_size overlap
              (next_start t overlap (window_end t chunk_size start)))
    as [ws|]; simpl; [|reflexivity].
  unfold window_chunks. simpl.
  destruct (truthy (strip (slice t start (window_end t chunk_size start))));
    [now rewrite <- app_assoc | reflexivity].
Qed.

End ChunkLoop.

(** C10 fails on the code.  On a text of 1900 letters, a sentence end and
    3000 letters the second window, which starts at 1702, is cut behind
    that sentence end at 1902, and the next start is 1702 again: the loop of
    [_chunk_text] with the default parameters never ends, whatever the
    fuel, and neither does [add_document] on that text. *)
Theorem chunk_text_loops_forever :
  len Demo.looping_text = 4902
  /\ window_end Demo.looping_text default_chunk_size 1702 = 1902
  /\ next_start Demo.looping_text default_overlap 1902 = 1702
  /\ (forall fuel,
        _chunk_text fuel Demo.looping_text default_chunk_size default_overlap
        = None)
  /\ (forall fuel self d n w,
        add_document self fuel d n Demo.looping_text w = None).
Proof.
  assert (Hlen : len Demo.looping_text = 4902) by (vm_compute; reflexivity).
  assert (He : window_end Demo.looping_text default_chunk_size 1702 = 1902)
    by (vm_compute; reflexivity).
  assert (Hn : next_start Demo.looping_text default_overlap 1902 = 1702)
    by (vm_compute; reflexivity).
  assert (H0 : next_start Demo.looping_text default_overlap
                 (window_end Demo.looping_text default_chunk_size 0) = 1702)
    by (vm_compute; reflexivity).
  assert (Hloop : forall fuel,
             _chunk_text fuel Demo.looping_text default_chunk_size
               default_overlap = None).
  { intros fuel. unfold _chunk_text. rewrite Hlen.
    change (4902 <=? default_chunk_size) with false. cbv iota.
    destruct fuel as [|fuel].
    - apply chunk_loop_out_of_fuel. rewrite Hlen. lia.
    - rewrite chunk_loop_step by (rewrite Hlen; lia). cbv zeta. rewrite H0.
      apply chunk_loop_stuck; [rewrite Hlen; lia | rewrite He; exact Hn]. }
  split; [exact Hlen|]. split; [exact He|]. split; [exact Hn|].
  split; [exact Hloop|].
  intros fuel self d n w. unfold add_document, bind, lift_option.
  unfold document_chunks. rewrite Hlen.
  change (4902 <? single_chunk_bound) with false. cbv iota.
  now rewrite Hloop.
Qed.

(* ----------------------------------------------------------------- *)
(** *** Windows that keep advancing *)

Lemma slice_inside (t : text) (a b : Z) :
  0 <= a -> a <= b -> b <= len t ->
  slice t a b = firstn (Z.to_nat (b - a)) (skipn (Z.to_nat a) t).
Proof.
  intros Ha Hab Hb. unfold slice, adjust.
  destruct (a <? 0) eqn:Ea; [apply Z.ltb_lt in Ea; lia|].
  destruct (b <? 0) eqn:Eb; [apply Z.ltb_lt in Eb; lia|].
  now rewrite !Z.min_l by lia.
Qed.

Lemma slice_to_end (t : text) (a b : Z) :
  0 <= a -> a <= len t -> len t <= b ->
  slice t a b = skipn (Z.to_nat a) t.
Proof.
  intros Ha Hal Hb. unfold slice, adjust.
  destruct (a <? 0) eqn:Ea; [apply Z.ltb_lt in Ea; lia|].
  destruct (b <? 0) eqn:Eb; [apply Z.ltb_lt in Eb; unfold len in *; lia|].
  rewrite (Z.min_r b), (Z.min_l a) by lia.
  apply firstn_all2. rewrite length_skipn. unfold len. lia.
Qed.

Lemma steady_cuts_inv (t : text) (chunk_size overlap : Z) :
  steady_cuts t chunk_size overlap = true ->
  forall s, 0 <= s < len t ->
            window_end t chunk_size s < len t ->
            overlap < window_end t chunk_size s - s.
Proof.
  unfold steady_cuts. rewrite forallb_forall. intros H s Hs He.
  specialize (H (Z.to_nat s)). rewrite Z2Nat.id in H by lia.
  assert (Hin : In (Z.to_nat s) (seq 0 (length t)))
    by (apply in_seq; unfold len in Hs; lia).
  apply H in Hin. apply orb_true_iff in Hin.
  destruct Hin as [Hin | Hin]; [apply Z.leb_le in Hin | apply Z.ltb_lt in Hin];
    lia.
Qed.

Section Steady.

Variable t : text.
Variables chunk_size overlap : Z.
Hypothesis overlap_nonneg : 0 <= overlap.
Hypothesis steady : steady_cuts t chunk_size overlap = true.

(** From a start inside the text the windows reach the end of the text, and
    without their overlaps they are the text behind the overlap of the
    first of them. *)
Lemma windows_reach_end (fuel : nat) :
  forall s, 0 <= s -> len t - s <= Z.of_nat fuel ->
  exists ws,
    windows_loop fuel t chunk_size overlap s = Some ws
    /\ concat (map (dropped t overlap) ws) = skipn (Z.to_nat (s + overlap)) t.
Proof.
  induction fuel as [|fuel IH]; intros s Hs Hfuel.
  - exists []. simpl.
    destruct (s <? len t) eqn:E; [apply Z.ltb_lt in E; lia|].
    split; [reflexivity|]. symmetry. apply skipn_all2. unfold len in *. lia.
  - simpl. destruct (s <? len t) eqn:E.
    + apply Z.ltb_lt in E. set (e := window_end t chunk_size s).
      unfold next_start. destruct (e <? len t) eqn:Ee.
      * apply Z.ltb_lt in Ee.
        pose proof (steady_cuts_inv t chunk_size overlap steady s
                      (conj Hs E) Ee) as Hadv. fold e in Hadv.
        destruct (IH (e - overlap)) as [ws [-> Hws]]; try lia.
        eexists. split; [reflexivity|].
        cbn [map concat]. rewrite Hws. unfold dropped. cbn [fst snd].
        rewrite slice_inside by lia.
        rewrite skipn_firstn_comm, skipn_skipn.
        replace (Z.to_nat (e - overlap + overlap))
          with ((Z.to_nat (e - s) - Z.to_nat overlap)
                + (Z.to_nat overlap + Z.to_nat s))%nat by lia.
        rewrite <- (skipn_skipn (Z.to_nat (e - s) - Z.to_nat overlap)).
        rewrite firstn_skipn. f_equal. lia.
      * apply Z.ltb_ge in Ee.
        destruct (IH e) as [ws [-> Hws]]; try lia.
        eexists. split; [reflexivity|].
        cbn [map concat]. rewrite Hws. unfold dropped at 1. cbn [fst snd].
        rewrite slice_to_end by lia. rewrite skipn_skipn.
        rewrite (skipn_all2 t (n := Z.to_nat (e + overlap)))
          by (unfold len in *; lia).
        rewrite app_nil_r. f_equal. lia.
    + apply Z.ltb_ge in E. exists []. split; [reflexivity|].
      symmetry. apply skipn_all2. unfold len in *. lia.
Qed.

Lemma windows_rebuild (fuel : nat) :
  (length t <= fuel)%nat ->
  exists ws,
    windows_loop fuel t chunk_size overlap 0 = Some ws
    /\ rebuild t overlap ws = t.
Proof.
  intros Hfuel. destruct fuel as [|fuel].
  - assert (t = []) by (destruct t; [reflexivity | simpl in Hfuel; lia]).
    subst t. exists []. split; reflexivity.
  - simpl. destruct (0 <? len t) eqn:E;
      [|apply Z.ltb_ge in E; exists []; split; [reflexivity|];
        destruct t; [reflexivity | unfold len in E; simpl in E; lia]].
    apply Z.ltb_lt in E. set (e := window_end t chunk_size 0).
    unfold next_start. destruct (e <? len t) eqn:Ee.
    + apply Z.ltb_lt in Ee.
      pose proof (steady_cuts_inv t chunk_size overlap steady 0
                    (conj (Z.le_refl 0) E) Ee) as Hadv. fold e in Hadv.
      destruct (windows_reach_end fuel (e - overlap)) as [ws [-> Hws]];
        try (unfold len in *; lia).
      eexists. split; [reflexivity|].
      unfold rebuild. cbn [fst snd].
      rewrite Hws, slice_inside by lia.
      replace (Z.to_nat (e - overlap + overlap)) with (Z.to_nat (e - 0)) by lia.
      simpl (Z.to_nat 0). cbn [skipn]. apply firstn_skipn.
    + apply Z.ltb_ge in Ee.
      destruct (windows_reach_end fuel e) as [ws [-> Hws]];
        try (unfold len in *; lia).
      eexists. split; [reflexivity|].
      unfold rebuild. cbn [fst snd].
      rewrite Hws, slice_to_end by lia.
      rewrite (skipn_all2 t (n := Z.to_nat (e + overlap)))
        by (unfold len in *; lia).
      now rewrite app_nil_r.
Qed.

End Steady.

(** C4, as the code has it.  For every text longer than [chunk_size] whose
    windows all advance (each window that ends inside the text is longer
    than the overlap), the chunker finishes within [len(text)] iterations;
    its chunks are the stripped, non-empty slices of its windows; and the
    slices of the windows themselves, each after the first without its
    first [overlap] characters, put together give the text exactly.  What
    the strip of a chunk removed is not in the chunks. *)
Theorem chunk_windows_rebuild_text (t : text) (chunk_size overlap : Z)
    (fuel : nat) :
  0 <= overlap ->
  chunk_size < len t ->
  steady_cuts t chunk_size overlap = true ->
  (length t <= fuel)%nat ->
  exists ws,
    windows_loop fuel t chunk_size overlap 0 = Some ws
    /\ _chunk_text fuel t chunk_size overlap = Some (window_chunks t ws)
    /\ rebuild t overlap ws = t.
Proof.
  intros Hov Hlong Hsteady Hfuel.
  destruct (windows_rebuild t chunk_size overlap Hov Hsteady fuel Hfuel)
    as [ws [Hws Hre]].
  exists ws. split; [assumption|]. split; [|assumption].
  unfold _chunk_text. apply Z.leb_gt in Hlong. rewrite Hlong.
  now rewrite chunk_loop_windows, Hws.
Qed.

Lemma chunk_windows_rebuild_text_witness :
  default_chunk_size < len Demo.sentences
  /\ steady_cuts Demo.sentences default_chunk_size default_overlap = true
  /\ exists ws,
       windows_loop 2600 Demo.sentences default_chunk_size default_overlap 0
       = Some ws
       /\ _chunk_text 2600 Demo.sentences default_chunk_size default_overlap
          = Some (window_chunks Demo.sentences ws)
       /\ rebuild Demo.sentences default_overlap ws = Demo.sentences.
Proof.
  split; [vm_compute; reflexivity|]. split; [vm_compute; reflexivity|].
  apply (chunk_windows_rebuild_text Demo.sentences default_chunk_size
           default_overlap 2600).
  - unfold default_overlap; lia.
  - vm_compute; reflexivity.
  - vm_compute; reflexivity.
  - vm_compute. lia.
Defined.

Lemma drop_prefixes_length (chunks : list text) :
  forall drops,
    (length (drop_prefixes drops chunks) <= length (concat chunks))%nat.
Proof.
  induction chunks as [|c cs IH]; intros [|k ks]; simpl;
    rewrite ?length_app, ?length_skipn; try lia.
  - specialize (IH []). lia.
  - specialize (IH ks). lia.
Qed.

(** C4 as the spec states it fails.  A blank in front of the text is in no
    chunk; and of ten letters, 3000 blanks and ten letters, a text that
    [add_document] hands to the chunker as it is, the chunks are the two
    groups of letters.  In both cases no way of dropping prefixes from the
    later chunks gives the text back. *)
Lemma lossless_chunking_claim_fails :
  (default_chunk_size < len Demo.blank_then_letters
   /\ _chunk_text 2 Demo.blank_then_letters default_chunk_size default_overlap
      = Some [repeat Demo.letter_a 1999; repeat Demo.letter_a 201]
   /\ forall drops,
        reassemble drops [repeat Demo.letter_a 1999; repeat Demo.letter_a 201]
        <> Demo.blank_then_letters)
  /\ (default_chunk_size < len Demo.letters_apart
      /\ strip Demo.letters_apart = Demo.letters_apart
      /\ document_chunks 2 Demo.letters_apart
         = Some [repeat Demo.letter_a 10; repeat Demo.letter_a 10]
      /\ forall drops,
           reassemble drops [repeat Demo.letter_a 10; repeat Demo.letter_a 10]
           <> Demo.letters_apart).
Proof.
  split.
  - split; [vm_compute; reflexivity|]. split; [vm_compute; reflexivity|].
    intros drops H. apply (f_equal (fun l => hd 0%N l)) in H.
    vm_compute in H. discriminate.
  - split; [vm_compute; reflexivity|]. split; [vm_compute; reflexivity|].
    split; [vm_compute; reflexivity|].
    intros drops H. apply (f_equal (@length char)) in H.
    pose proof (drop_prefixes_length
                  [repeat Demo.letter_a 10; repeat Demo.letter_a 10]
                  (0%nat :: drops)) as Hle.
    unfold reassemble in H. rewrite H in Hle. vm_compute in Hle. lia.
Qed.

(* ================================================================= *)
(** ** Batch ingestion *)

Lemma remove_document_returns (d : text) (w : World) :
  exists w', remove_document d w = Some (Ok tt, w').
Proof.
  unfold remove_document, bind, get_collection.
  destruct (map id (Chroma.get_where (collection w) d));
    eexists; reflexivity.
Qed.


Section Batch.

Variable self : RAGPipeline.
Variable docs : DocsService.
Variable fuel : nat.







End Batch.



(* ================================================================= *)
(** ** The invariant of the collection along the handlers *)

Lemma wf_store_filter (f : Chunk -> bool) (c : list Chunk) :
  wf_store c = true -> wf_store (filter f c) = true.
Proof.
  rewrite !wf_store_inv. intros [Hnd Hwn]. split.
  - now apply NoDup_filter.
  - rewrite forallb_forall in *. intros r Hr. apply Hwn.
    apply filter_In in Hr. tauto.
Qed.

Lemma clear_all_documents_invariant (w w' : World) (r : result unit) :
  wf_store (collection w) = true ->
  clear_all_documents w = Some (r, w') ->
  wf_store (collection w') = true.
Proof.
  intros Hwf. unfold clear_all_documents, bind, get_collection, ret,
    set_collection.
  destruct (Nat.ltb 0 (Chroma.count (collection w)));
    [destruct (map id (collection w))|];
    intros H; injection H as _ <-; try assumption.
  simpl. now apply wf_store_filter.
Qed.

Lemma replace_document_invariant (self : RAGPipeline) (fuel : nat)
    (d n content : text) (w w' : World) (r : result unit) :
  wf_store (collection w) = true ->
  replace_document self fuel d n content w = Some (r, w') ->
  wf_store (collection w') = true.
Proof.
  intros Hwf Hrun.
  destruct (document_chunks fuel content) as [chunks|] eqn:Hc.
  - destruct (replace_document_run self fuel d n content chunks w Hwf Hc)
      as [w1 [Hrun1 Hw1]].
    rewrite Hrun1 in Hrun. injection Hrun as _ <-.
    rewrite Hw1. now apply wf_store_new.
  - exfalso. revert Hrun. unfold replace_document, bind.
    destruct (remove_document_returns d w) as [w1 ->].
    unfold add_document, bind, lift_option. now rewrite Hc.
Qed.

Section BatchInvariant.

Variable self : RAGPipeline.
Variable docs : DocsService.
Variable fuel : nat.

Lemma process_document_invariant (d : text) (errors : list text)
    (w w' : World) (r : result (bool * list text)) :
  wf_store (collection w) = true ->
  process_document self docs fuel d errors w = Some (r, w') ->
  wf_store (collection w') = true.
Proof.
  intros Hwf. unfold process_document, get_document_content,
    get_document_name, bind, lift_result, ret.
  destruct (fetch_text docs d) as [t|e];
    [|intros H; injection H as _ <-; assumption].
  destruct (negb (truthy (strip t)) || (len (strip (strip t)) =? 0));
    [intros H; injection H as _ <-; assumption|].
  destruct (fetch_name docs d) as [n|e];
    [|intros H; injection H as _ <-; assumption].
  destruct (replace_document self fuel d _ (strip t) w)
    as [[[[]|e] w1]|] eqn:Hrep; try discriminate;
    intros H; injection H as _ <-;
    eapply replace_document_invariant; eauto.
Qed.

Lemma add_documents_loop_invariant (document_ids : list text) :
  forall added errors w w' r,
    wf_store (collection w) = true ->
    add_documents_loop self docs fuel document_ids added errors w
    = Some (r, w') ->
    wf_store (collection w') = true.
Proof.
  induction document_ids as [|d rest IH]; intros added errors w w' r Hwf.
  - simpl. unfold ret. intros H; injection H as _ <-; assumption.
  - cbn [add_documents_loop]. unfold bind, try_except, ret.
    destruct (process_document self docs fuel d errors w)
      as [[[[ok errors']|e] w1]|] eqn:Hp; try discriminate;
      pose proof (process_document_invariant d errors w w1 _ Hwf Hp) as Hwf1;
      apply IH; assumption.
Qed.

End BatchInvariant.

(** Every collection the ingestion handler leaves satisfies the invariant
    when the one it found does. *)
Lemma add_documents_invariant (self : RAGPipeline) (docs : DocsService)
    (fuel : nat) (authenticated : bool) (document_ids : list text)
    (clear_first : bool) (w w' : World) (r : http AddDocumentsResponse) :
  wf_store (collection w) = true ->
  add_documents self docs fuel authenticated document_ids clear_first w
  = Some (r, w') ->
  wf_store (collection w') = true.
Proof.
  intros Hwf. unfold add_documents.
  destruct ((if clear_first then clear_all_documents else ret tt) w)
    as [[r1 w1]|] eqn:Hclear; [|discriminate].
  assert (Hwf1 : wf_store (collection w1) = true).
  { destruct clear_first.
    - eapply clear_all_documents_invariant; eauto.
    - unfold ret in Hclear. now injection Hclear as _ <-. }
  destruct authenticated; [|intros H; injection H as _ <-; assumption].
  destruct (add_documents_loop self docs fuel document_ids 0 [] w1)
    as [[[[added errors]|e] w2]|] eqn:Hloop; try discriminate;
    intros H; injection H as _ <-;
    eapply add_documents_loop_invariant; eauto.
Qed.
